(** * ChainedTables: the chained hash table of [chained_table.cpp]

    A shallow embedding of [create_table], [insert], [search], [replace]
    and [remove], and the properties of the table's specification that
    are settled against them.

    The table is a C program over raw pointers, so the embedding keeps a
    small store ([Heap]) and runs every operation in a state-and-fault
    monad: an operation either completes with a result and a new store,
    stops on an undefined access ([Fault]), or is still looping when its
    fuel is spent ([Timeout]). *)

From stdpp Require Import gmap list.
From Stdlib Require String.

Open Scope Z_scope.

Module ChainedTable.

(** ** Pointers and the store *)

(** A C pointer value.  [Vundef] is the indeterminate value held by a
    local pointer that was declared without an initialiser; using it is
    undefined behaviour, as is dereferencing [NULL]. *)
Inductive ptr : Type :=
  | NULL
  | Vundef
  | Ptr (a : Z).

#[global] Instance ptr_eq_dec : EqDecision ptr.
Proof. solve_decision. Defined.

(** [p == NULL] *)
Definition is_null (p : ptr) : bool :=
  match p with NULL => true | _ => false end.

(** [Record] of record.h: the two fields the table code reads and
    writes, [r->key] and [r->value].  Both are [void*] into buffers owned
    by the caller. *)
Record RecordT : Type := { key : ptr; value : ptr }.

(** [LinkedList] and [Node] of linked_list.h, as far as the table code
    uses them: [list->first], [node->data], [node->next].  A chain is
    kept as the sequence of its nodes' [data] pointers; a [Node*] cursor
    is a suffix of that sequence, [NULL] being the empty suffix,
    [node->data] its head and [node->next] its tail. *)
Record LinkedList : Type := { first : list ptr }.

(** The store: the [Record] cells and the [LinkedList] cells, by
    address. *)
Record Heap : Type := {
  records : gmap Z RecordT;
  lists : gmap Z LinkedList
}.

(** ** Outcomes *)

Inductive fault : Type :=
  | NullDereference
  | UninitialisedPointer
  | DanglingPointer
  | DivisionByZero
  | OutOfBounds.

Inductive outcome (A : Type) : Type :=
  | Done (a : A) (h : Heap)
  | Fault (f : fault)
  | Timeout.

Arguments Done {A} a h.
Arguments Fault {A} f.
Arguments Timeout {A}.

Definition M (A : Type) : Type := Heap -> outcome A.

Definition ret {A} (a : A) : M A := fun h => Done a h.

Definition bind {A B} (m : M A) (f : A -> M B) : M B :=
  fun h =>
    match m h with
    | Done a h' => f a h'
    | Fault e => Fault e
    | Timeout => Timeout
    end.

Definition crash {A} (e : fault) : M A := fun _ => Fault e.

Notation "'let*' x ':=' m 'in' k" := (bind m (fun x => k))
  (at level 10, x name, m at level 100, k at level 200, only parsing).

(** ** Memory accesses *)

(** The address behind a pointer that is about to be dereferenced. *)
Definition deref (p : ptr) : M Z :=
  match p with
  | NULL => crash NullDereference
  | Vundef => crash UninitialisedPointer
  | Ptr a => ret a
  end.

(** [*r] for a [Record* r] *)
Definition load_record (r : ptr) : M RecordT :=
  let* a := deref r in
  fun h =>
    match records h !! a with
    | Some rec => Done rec h
    | None => Fault DanglingPointer
    end.

Definition store_record (r : ptr) (upd : RecordT -> RecordT) : M unit :=
  let* a := deref r in
  fun h =>
    match records h !! a with
    | Some rec =>
        Done tt {| records := <[a := upd rec]> (records h); lists := lists h |}
    | None => Fault DanglingPointer
    end.

(** [r->key = k] *)
Definition store_key (r k : ptr) : M unit :=
  store_record r (fun rec => {| key := k; value := value rec |}).

(** [r->value = v] *)
Definition store_value (r v : ptr) : M unit :=
  store_record r (fun rec => {| key := key rec; value := v |}).

(** [*list] for a [LinkedList* list] *)
Definition load_list (list : ptr) : M LinkedList :=
  let* a := deref list in
  fun h =>
    match lists h !! a with
    | Some l => Done l h
    | None => Fault DanglingPointer
    end.

Definition store_list (list : ptr) (l : LinkedList) : M unit :=
  let* a := deref list in
  fun h =>
    match lists h !! a with
    | Some _ => Done tt {| records := records h; lists := <[a := l]> (lists h) |}
    | None => Fault DanglingPointer
    end.

(** [free(data)] of a [Record] cell *)
Definition free_record (data : ptr) : M unit :=
  let* a := deref data in
  fun h => Done tt {| records := delete a (records h); lists := lists h |}.

(** ** linked_list.h *)

(** Modelled from the spec: [add_beginning] of linked_list.h, which the
    table calls but whose source is not in src/.  The spec (4.2) has
    the new Entry linked "at the head ... of that bucket's chain": the
    list's first node becomes a node for [data], followed by the old
    chain.  [size] is the byte count the caller passes; the chain keeps
    [data] itself. *)
Definition add_beginning (list : ptr) (data : ptr) (size : Z) : M unit :=
  let* l := load_list list in
  store_list list {| first := data :: first l |}.

(** Modelled from the spec: [remove_n] of linked_list.h, whose source is
    not in src/.  The spec (4.5) has the entry "unlink[ed] from its
    chain, releasing the entry's memory immediately", the chain length
    going down by one: the node at position [n] is dropped from the
    chain and its entry freed.  A position past the end changes
    nothing. *)
Definition remove_n (list : ptr) (n : Z) : M unit :=
  let* l := load_list list in
  match first l !! Z.to_nat n with
  | Some data =>
      let* _ := free_record data in
      store_list list {| first := delete (Z.to_nat n) (first l) |}
  | None => ret tt
  end.

(** ** chained_table.h *)

(** [struct HashTable].  [buckets] is the array of [LinkedList*]; the
    three function pointers are the caller's hash, comparator and
    formatter, which read the caller's buffers and are taken as pure
    functions of the pointers they are given. *)
Record HashTable : Type := {
  N : Z;
  buckets : list ptr;
  hash_function : ptr -> Z;
  compare : ptr -> ptr -> Z;
  record_formatter : ptr -> String.string;
  key_size : Z;
  value_size : Z
}.

(** The size of a [Record] pointer, which [insert] passes as the byte
    count. *)
Definition sizeof_ptr : Z := 8.

(** Conversion to [size_t] (64 bits). *)
Definition to_size_t (x : Z) : Z := x mod 2 ^ 64.

(** ** chained_table.cpp *)

(** [create_table]: the table is allocated, its fields are set, and the
    bucket array gets [N] slots, each set to [NULL] by the loop
    [for (i = 0; i < N; i++)].  For [N <= 0] the loop body never runs
    and no slot can be addressed.  The result is the [HashTable*]; no
    path returns [NULL]. *)
Definition create_table (N : Z) (hash_function : ptr -> Z)
    (compare : ptr -> ptr -> Z) (record_formatter : ptr -> String.string)
    (key_size value_size : Z) : option HashTable :=
  Some {| N := N;
          hash_function := hash_function;
          compare := compare;
          record_formatter := record_formatter;
          key_size := key_size;
          value_size := value_size;
          buckets := replicate (Z.to_nat N) NULL |}.

(** [table->hash_function(key) % table->N]: the hash is a [size_t], so
    the [int] field [N] is converted to [size_t] before the remainder is
    taken; a zero divisor is undefined. *)
Definition bucket_index (table : HashTable) (key : ptr) : M Z :=
  let h := to_size_t (hash_function table key) in
  let n := to_size_t (N table) in
  if n =? 0 then crash DivisionByZero else ret (h mod n).

(** [table->buckets[table->hash_function(key) % table->N]] *)
Definition bucket_of (table : HashTable) (key : ptr) : M ptr :=
  let* i := bucket_index table key in
  match buckets table !! Z.to_nat i with
  | Some list => ret list
  | None => crash OutOfBounds
  end.

(** [insert].  The local [Record* r] is declared without a value and
    written through on the next line. *)
Definition insert (table : option HashTable) (key value : ptr) : M bool :=
  match table with
  | None => ret false
  | Some t =>
      if is_null key || is_null value then ret false
      else
        let r := Vundef in
        let* _ := store_key r key in
        let* _ := store_value r value in
        let* list := bucket_of t key in
        let* _ := add_beginning list r sizeof_ptr in
        ret true
  end.


(** The [while (node != NULL)] loop of [search].  Its body ends without
    moving [node], so the next iteration runs on the same node; [fuel]
    bounds the number of iterations. *)
Fixpoint search_loop (fuel : nat) (t : HashTable) (key : ptr)
    (node : list ptr) : M ptr :=
  match fuel with
  | O => fun _ => Timeout
  | S fuel' =>
      match node with
      | [] => ret NULL
      | data :: next =>
          let* r := load_record data in
          if compare t key r.(ChainedTable.key) =? 0
          then ret r.(ChainedTable.value)
          else search_loop fuel' t key node
      end
  end.

(** [search] *)
Definition search (fuel : nat) (table : option HashTable) (key : ptr)
    : M ptr :=
  match table with
  | None => ret NULL
  | Some t =>
      if is_null key then ret NULL
      else
        let* list := bucket_of t key in
        let* l := load_list list in
        search_loop fuel t key (first l)
  end.

(** The loop of [replace]: [node = node->next] in the else branch, so
    the recursion is on the rest of the chain. *)
Fixpoint replace_loop (t : HashTable) (key new_value : ptr)
    (node : list ptr) : M bool :=
  match node with
  | [] => ret false
  | data :: next =>
      let* r := load_record data in
      if compare t key r.(ChainedTable.key) =? 0
      then let* _ := store_value data new_value in ret true
      else replace_loop t key new_value next
  end.

(** [replace] *)
Definition replace (table : option HashTable) (key new_value : ptr)
    : M bool :=
  match table with
  | None => ret false
  | Some t =>
      if is_null key || is_null new_value then ret false
      else
        let* list := bucket_of t key in
        let* l := load_list list in
        replace_loop t key new_value (first l)
  end.

(** The loop of [remove]: it stops ([break]) on the first node whose key
    compares equal and otherwise counts the node and moves on.  It
    yields [count] and the node it stopped on ([NULL] when the chain
    was exhausted).  [count] is an [int] in the source; a chain long
    enough to overflow it is out of reach, and it is kept unbounded
    here. *)
Fixpoint remove_loop (t : HashTable) (key : ptr) (count : Z)
    (node : list ptr) : M (Z * list ptr) :=
  match node with
  | [] => ret (count, [])
  | data :: next =>
      let* r := load_record data in
      if compare t key r.(ChainedTable.key) =? 0
      then ret (count, node)
      else remove_loop t key (count + 1) next
  end.

(** [remove] *)
Definition remove (table : option HashTable) (key : ptr) : M bool :=
  match table with
  | None => ret false
  | Some t =>
      if is_null key then ret false
      else
        let* list := bucket_of t key in
        let* l := load_list list in
        let* cn := remove_loop t key 0 (first l) in
        match snd cn with
        | _ :: _ =>
            let* list' := bucket_of t key in
            let* _ := remove_n list' (fst cn) in
            ret true
        | [] => ret false
        end
  end.

End ChainedTable.

(** * A caller: the scenario of the specification

    [N = 4], integer keys hashed by their value, the comparator is
    integer subtraction.  The caller keeps the integer [k] at address
    [1000 + k] and its one-character values at [2001], [2002], ... *)

Module Scenario.
Import ChainedTable.

Definition int_at (p : ptr) : Z :=
  match p with Ptr a => a - 1000 | _ => 0 end.

Definition int_hash (p : ptr) : Z := int_at p.

Definition int_compare (a b : ptr) : Z := int_at a - int_at b.

Definition int_format (p : ptr) : String.string := String.EmptyString.

Definition k5 : ptr := Ptr 1005.
Definition k9 : ptr := Ptr 1009.
Definition k13 : ptr := Ptr 1013.
Definition va : ptr := Ptr 2001.
Definition vb : ptr := Ptr 2002.
Definition vc : ptr := Ptr 2003.

(** The table a caller gets from [create_table]. *)
Definition created : option HashTable :=
  create_table 4 int_hash int_compare int_format 4 1.

Definition no_cells : Heap := {| records := ∅; lists := ∅ |}.

(** A table whose four buckets point to [LinkedList] cells a caller
    made with the list module itself, at addresses 10 to 13. *)
Definition linked : HashTable :=
  {| N := 4;
     buckets := [Ptr 10; Ptr 11; Ptr 12; Ptr 13];
     hash_function := int_hash;
     compare := int_compare;
     record_formatter := int_format;
     key_size := 4;
     value_size := 1 |}.

Definition cells (chain1 : list ptr) (recs : list (Z * RecordT)) : Heap :=
  {| records := list_to_map recs;
     lists := list_to_map
       [(10, {| first := [] |}); (11, {| first := chain1 |});
        (12, {| first := [] |}); (13, {| first := [] |})] |}.

Definition rec5a : Z * RecordT := (105, {| key := k5; value := va |}).
Definition rec5c : Z * RecordT := (105, {| key := k5; value := vc |}).
Definition rec9b : Z * RecordT := (109, {| key := k9; value := vb |}).
Definition rec13c : Z * RecordT := (113, {| key := k13; value := vc |}).

(** Bucket 1 holds the chain [5:"a"]. *)
Definition heap_5 : Heap := cells [Ptr 105] [rec5a].

(** Bucket 1 holds the chain [9:"b", 5:"a"]. *)
Definition heap_9_5 : Heap := cells [Ptr 109; Ptr 105] [rec9b; rec5a].

(** Bucket 1 holds [9:"b", 5:"c"]: [heap_9_5] with the value of key 5
    replaced. *)
Definition heap_9_5c : Heap := cells [Ptr 109; Ptr 105] [rec9b; rec5c].

(** Bucket 1 holds the chain [5:"c"]. *)
Definition heap_5c : Heap := cells [Ptr 105] [rec5c].

(** Bucket 1 holds [9:"b", 5:"c", 5:"a"]: two entries for key 5, the
    one nearer the head being the later one. *)
Definition rec5c_later : Z * RecordT := (115, {| key := k5; value := vc |}).
Definition heap_9_5_5 : Heap :=
  cells [Ptr 109; Ptr 115; Ptr 105] [rec9b; rec5c_later; rec5a].

(** [t] with another comparator in its [compare] field. *)
Definition with_compare (t : HashTable) (cmp : ptr -> ptr -> Z) : HashTable :=
  {| N := N t;
     buckets := buckets t;
     hash_function := hash_function t;
     compare := cmp;
     record_formatter := record_formatter t;
     key_size := key_size t;
     value_size := value_size t |}.

End Scenario.

(** * Sequences of operations and the bucket invariant *)

Module Invariant.
Import ChainedTable.

(** [hash(key) mod N] as a value: the bucket a key belongs to, when
    the remainder is defined. *)
Definition home_bucket (t : HashTable) (key : ptr) : option Z :=
  let n := to_size_t (N t) in
  if n =? 0 then None
  else Some (to_size_t (hash_function t key) mod n).

(** Every entry that sits in the chain of bucket [i] has a key whose
    home bucket is [i]. *)
Definition bucket_inv (t : HashTable) (h : Heap) : Prop :=
  forall (i : nat) (a : Z) (l : LinkedList) (b : Z) (r : RecordT),
    buckets t !! i = Some (Ptr a) ->
    lists h !! a = Some l ->
    Ptr b ∈ first l ->
    records h !! b = Some r ->
    home_bucket t (key r) = Some (Z.of_nat i).

(** The three mutating calls a caller can make. *)
Inductive op : Type :=
  | Insert (key value : ptr)
  | Replace (key new_value : ptr)
  | Remove (key : ptr).

Definition run (table : option HashTable) (o : op) : M bool :=
  match o with
  | Insert key value => insert table key value
  | Replace key new_value => replace table key new_value
  | Remove key => remove table key
  end.

(** The calls of [os] one after the other, each on the store the
    previous one left. *)
Fixpoint run_all (table : option HashTable) (os : list op) : M unit :=
  match os with
  | [] => ret tt
  | o :: os' => bind (run table o) (fun _ => run_all table os')
  end.

(** [h'] has no entry that [h] lacks: every chain of [h'] is drawn from
    the chain [h] has at the same address, and every record of [h'] is
    at the same address in [h] with the same key. *)
Definition shrinks (h h' : Heap) : Prop :=
  (forall a l', lists h' !! a = Some l' ->
     exists l, lists h !! a = Some l /\ first l' ⊆ first l) /\
  (forall b r', records h' !! b = Some r' ->
     exists r, records h !! b = Some r /\ key r = key r').

(** [d] is a node a scan for [key] moves past: a live record whose key
    does not compare equal. *)
Definition passes_over (t : HashTable) (key : ptr) (h : Heap) (d : ptr) : Prop :=
  exists a r, d = Ptr a /\ records h !! a = Some r /\
              compare t key (ChainedTable.key r) <> 0.

End Invariant.

(** * What the calls can be observed to do *)

Module Behaviour.
Import ChainedTable Scenario Invariant.

(** The call is stopped by the null-argument guard of its function. *)
Definition has_null_arg (o : op) : bool :=
  match o with
  | Insert key value => is_null key || is_null value
  | Replace key new_value => is_null key || is_null new_value
  | Remove key => is_null key
  end.

(** [h'] has the lists of [h], at the same addresses, none of them
    longer than it was. *)
Definition no_longer (h h' : Heap) : Prop :=
  forall a,
    match lists h' !! a with
    | Some l' =>
        exists l, lists h !! a = Some l /\
                  (length (first l') <= length (first l))%nat
    | None => lists h !! a = None
    end.

(** Bucket 1 holds an empty chain, like the other three. *)
Definition heap_empty : Heap := cells [] [].

(** A table [create_table] returns for [N = 0], and one for [N = -3]. *)
Definition created_0 : option HashTable :=
  create_table 0 int_hash int_compare int_format 4 1.
Definition created_neg : option HashTable :=
  create_table (-3) int_hash int_compare int_format 4 1.

(** The call is an [insert]. *)
Definition is_insert (o : op) : bool :=
  match o with Insert _ _ => true | _ => false end.







End Behaviour.

(** * Proofs *)

Import ChainedTable Scenario Invariant Behaviour.

(** ** Reading the monad *)

Section Monad.
Context {A B : Type}.

Lemma bind_Done (m : M A) (f : A -> M B) h b h' :
  bind m f h = Done b h' ->
  exists a h1, m h = Done a h1 /\ f a h1 = Done b h'.
Proof.
  unfold bind. destruct (m h) as [a h1| |]; [eauto | discriminate..].
Qed.

Lemma bind_step (m : M A) (f : A -> M B) h a h1 :
  m h = Done a h1 -> bind m f h = f a h1.
Proof. unfold bind. intros ->. reflexivity. Qed.
End Monad.

Lemma deref_Done p h a h' : deref p h = Done a h' -> p = Ptr a /\ h' = h.
Proof. destruct p; cbn; intros [=]; subst; auto. Qed.

Lemma load_record_Done p h r h' :
  load_record p h = Done r h' ->
  h' = h /\ exists a, p = Ptr a /\ records h !! a = Some r.
Proof.
  unfold load_record. intros H.
  apply bind_Done in H as (a & h1 & Hd & H).
  apply deref_Done in Hd as [-> ->].
  destruct (records h !! a) eqn:E; inversion H; subst; eauto.
Qed.

Lemma load_record_live a r h :
  records h !! a = Some r -> load_record (Ptr a) h = Done r h.
Proof. intros E. cbv [load_record bind deref ret]. rewrite E. reflexivity. Qed.

Lemma load_list_Done p h l h' :
  load_list p h = Done l h' ->
  h' = h /\ exists a, p = Ptr a /\ lists h !! a = Some l.
Proof.
  unfold load_list. intros H.
  apply bind_Done in H as (a & h1 & Hd & H).
  apply deref_Done in Hd as [-> ->].
  destruct (lists h !! a) eqn:E; inversion H; subst; eauto.
Qed.

Lemma load_list_live a l h :
  lists h !! a = Some l -> load_list (Ptr a) h = Done l h.
Proof. intros E. cbv [load_list bind deref ret]. rewrite E. reflexivity. Qed.

Lemma store_value_Done p v h u h' :
  store_value p v h = Done u h' ->
  exists a r, p = Ptr a /\ records h !! a = Some r /\
    h' = {| records := <[a := {| key := key r; value := v |}]> (records h);
            lists := lists h |}.
Proof.
  unfold store_value, store_record. intros H.
  apply bind_Done in H as (a & h1 & Hd & H).
  apply deref_Done in Hd as [-> ->].
  destruct (records h !! a) eqn:E; inversion H; subst; eauto.
Qed.

Lemma bucket_index_Done t key h i h' :
  bucket_index t key h = Done i h' ->
  h' = h /\ home_bucket t key = Some i.
Proof.
  unfold bucket_index, home_bucket.
  destruct (to_size_t (N t) =? 0); cbn; intros [=]; subst; auto.
Qed.

Lemma bucket_of_Done t key h p h' :
  bucket_of t key h = Done p h' ->
  h' = h /\ exists i, home_bucket t key = Some i /\
                      buckets t !! Z.to_nat i = Some p.
Proof.
  unfold bucket_of. intros H.
  apply bind_Done in H as (i & h1 & Hi & H).
  apply bucket_index_Done in Hi as [-> Hi].
  destruct (buckets t !! Z.to_nat i) eqn:E; inversion H; subst; eauto.
Qed.

(** ** [insert] *)

(** With three non-null arguments [insert] writes through its
    uninitialised [r] and gets no further. *)
Lemma insert_nonnull t key value h :
  is_null key = false -> is_null value = false ->
  insert (Some t) key value h = Fault UninitialisedPointer.
Proof. intros Hk Hv. unfold insert. rewrite Hk, Hv. reflexivity. Qed.

Lemma is_null_true p : is_null p = true <-> p = NULL.
Proof. destruct p; cbn; split; congruence. Qed.

(** The only way [insert] returns is through its null-argument guard. *)
Lemma insert_Done table key value h b h' :
  insert table key value h = Done b h' ->
  b = false /\ h' = h /\ (table = None \/ key = NULL \/ value = NULL).
Proof.
  destruct table as [t|]; cbn.
  - destruct (is_null key) eqn:Hk; cbn.
    + intros [= <- <-]. apply is_null_true in Hk. auto.
    + destruct (is_null value) eqn:Hv; cbn.
      * intros [= <- <-]. apply is_null_true in Hv. auto.
      * discriminate.
  - intros [= <- <-]. auto.
Qed.

(** ** [search] *)

(** A first node whose key does not compare equal is looked at again
    on every iteration: no amount of fuel gets the loop past it. *)
Lemma search_loop_stuck t key a next r h :
  records h !! a = Some r ->
  compare t key (ChainedTable.key r) <> 0 ->
  forall fuel, search_loop fuel t key (Ptr a :: next) h = Timeout.
Proof.
  intros Hr Hne fuel. induction fuel as [|fuel IH]; [reflexivity|].
  cbn [search_loop].
  rewrite (bind_step _ _ _ _ _ (load_record_live _ _ _ Hr)).
  apply Z.eqb_neq in Hne. rewrite Hne. exact IH.
Qed.

(** A first node whose key compares equal is returned at once. *)
Lemma search_loop_head t key a next r h fuel :
  records h !! a = Some r ->
  compare t key (ChainedTable.key r) = 0 ->
  search_loop (S fuel) t key (Ptr a :: next) h = Done (value r) h.
Proof.
  intros Hr He. cbn [search_loop].
  rewrite (bind_step _ _ _ _ _ (load_record_live _ _ _ Hr)).
  apply Z.eqb_eq in He. rewrite He. reflexivity.
Qed.

(** [search] as a whole: when the head of the bucket's chain does not
    match, the call never returns; when it matches, its value pointer
    is returned. *)
Lemma search_stuck t key a l d next r h :
  is_null key = false ->
  bucket_of t key h = Done (Ptr a) h ->
  lists h !! a = Some l -> first l = Ptr d :: next ->
  records h !! d = Some r ->
  compare t key (ChainedTable.key r) <> 0 ->
  forall fuel, search fuel (Some t) key h = Timeout.
Proof.
  intros Hk Hb Hl Hf Hr Hne fuel. unfold search. rewrite Hk.
  rewrite (bind_step _ _ _ _ _ Hb).
  pose proof (load_list_live _ _ _ Hl) as Hld.
  rewrite (bind_step _ _ _ _ _ Hld), Hf.
  eapply search_loop_stuck; eassumption.
Qed.

Lemma search_head t key a l d next r h fuel :
  is_null key = false ->
  bucket_of t key h = Done (Ptr a) h ->
  lists h !! a = Some l -> first l = Ptr d :: next ->
  records h !! d = Some r ->
  compare t key (ChainedTable.key r) = 0 ->
  search (S fuel) (Some t) key h = Done (value r) h.
Proof.
  intros Hk Hb Hl Hf Hr He. unfold search. rewrite Hk.
  rewrite (bind_step _ _ _ _ _ Hb).
  pose proof (load_list_live _ _ _ Hl) as Hld.
  rewrite (bind_step _ _ _ _ _ Hld), Hf.
  apply search_loop_head; assumption.
Qed.

(** ** Tables made by [create_table] *)

Lemma to_size_t_small n : 0 <= n < 2 ^ 64 -> to_size_t n = n.
Proof. intros. unfold to_size_t. apply Z.mod_small. assumption. Qed.

(** Whatever the key, the bucket selected in a new table is a [NULL]
    list pointer. *)
Lemma bucket_of_created n hf cmp fmt ks vs t key h :
  create_table n hf cmp fmt ks vs = Some t ->
  1 <= n < 2 ^ 64 ->
  bucket_of t key h = Done NULL h.
Proof.
  intros [= <-] Hn. unfold bucket_of, bucket_index. cbn [N hash_function buckets].
  rewrite (to_size_t_small n) by lia.
  destruct (n =? 0) eqn:E; [apply Z.eqb_eq in E; lia|].
  cbv [bind ret].
  pose proof (Z.mod_pos_bound (to_size_t (hf key)) n ltac:(lia)) as Hb.
  rewrite lookup_replicate_2 by lia. reflexivity.
Qed.

Lemma search_created n hf cmp fmt ks vs key h fuel :
  1 <= n < 2 ^ 64 -> is_null key = false ->
  search fuel (create_table n hf cmp fmt ks vs) key h = Fault NullDereference.
Proof.
  intros Hn Hk. destruct (create_table n hf cmp fmt ks vs) as [t|] eqn:E;
    [|discriminate].
  unfold search. rewrite Hk.
  rewrite (bind_step _ _ _ _ _ (bucket_of_created _ _ _ _ _ _ _ key h E Hn)).
  reflexivity.
Qed.

Lemma replace_created n hf cmp fmt ks vs key new_value h :
  1 <= n < 2 ^ 64 -> is_null key = false -> is_null new_value = false ->
  replace (create_table n hf cmp fmt ks vs) key new_value h
  = Fault NullDereference.
Proof.
  intros Hn Hk Hv. destruct (create_table n hf cmp fmt ks vs) as [t|] eqn:E;
    [|discriminate].
  unfold replace. rewrite Hk, Hv. cbn [orb].
  rewrite (bind_step _ _ _ _ _ (bucket_of_created _ _ _ _ _ _ _ key h E Hn)).
  reflexivity.
Qed.

Lemma remove_created n hf cmp fmt ks vs key h :
  1 <= n < 2 ^ 64 -> is_null key = false ->
  remove (create_table n hf cmp fmt ks vs) key h = Fault NullDereference.
Proof.
  intros Hn Hk. destruct (create_table n hf cmp fmt ks vs) as [t|] eqn:E;
    [|discriminate].
  unfold remove. rewrite Hk.
  rewrite (bind_step _ _ _ _ _ (bucket_of_created _ _ _ _ _ _ _ key h E Hn)).
  reflexivity.
Qed.

(** ** [replace] *)

(** What a returning [replace] loop has done: nothing when it answers
    [false]; when it answers [true], one record of the chain, whose key
    compares equal, has had its [value] field overwritten. *)
Lemma replace_loop_Done t key new_value node h b h' :
  replace_loop t key new_value node h = Done b h' ->
  (b = false /\ h' = h) \/
  (b = true /\ exists a r,
     Ptr a ∈ node /\ records h !! a = Some r /\
     compare t key (ChainedTable.key r) = 0 /\
     h' = {| records :=
               <[a := {| key := ChainedTable.key r; value := new_value |}]>
                 (records h);
             lists := lists h |}).
Proof.
  induction node as [|data next IH]; cbn [replace_loop].
  - intros [= <- <-]. auto.
  - intros H. apply bind_Done in H as (r & h1 & Hl & H).
    apply load_record_Done in Hl as (-> & a & -> & Hr).
    destruct (compare t key (ChainedTable.key r) =? 0) eqn:E.
    + apply bind_Done in H as (u & h2 & Hs & H).
      apply store_value_Done in Hs as (a' & r' & [= <-] & Hr' & ->).
      inversion H; subst. rewrite Hr in Hr'. inversion Hr'; subst r'.
      right. split; [reflexivity|]. exists a, r.
      apply Z.eqb_eq in E. repeat split; auto. apply list_elem_of_here.
    + destruct (IH H) as [?|(-> & a' & r' & Hin & ?)]; [auto|].
      right. split; [reflexivity|]. exists a', r'.
      split; [apply list_elem_of_further; exact Hin | assumption].
Qed.

Lemma replace_Done t key new_value h b h' :
  replace (Some t) key new_value h = Done b h' ->
  (b = false /\ h' = h) \/
  (b = true /\ exists a r,
     records h !! a = Some r /\
     compare t key (ChainedTable.key r) = 0 /\
     h' = {| records :=
               <[a := {| key := ChainedTable.key r; value := new_value |}]>
                 (records h);
             lists := lists h |}).
Proof.
  unfold replace.
  destruct (is_null key || is_null new_value); [intros [= <- <-]; auto|].
  intros H. apply bind_Done in H as (p & h1 & Hb & H).
  apply bucket_of_Done in Hb as (-> & _).
  apply bind_Done in H as (l & h2 & Hl & H).
  apply load_list_Done in Hl as (-> & _).
  apply replace_loop_Done in H as [?|(-> & a & r & _ & ? & ? & ?)]; [auto|].
  right. eauto 6.
Qed.

(** ** [remove] *)

(** The scan of [remove] leaves the store alone; it stops on the first
    node whose key compares equal, having counted the nodes before
    it. *)
Lemma remove_loop_Done t key count node h cn h' :
  remove_loop t key count node h = Done cn h' ->
  h' = h /\
  exists pre, node = pre ++ snd cn /\ fst cn = count + Z.of_nat (length pre) /\
    Forall (fun d => exists a r, d = Ptr a /\ records h !! a = Some r /\
                       compare t key (ChainedTable.key r) <> 0) pre /\
    match snd cn with
    | d :: _ => exists a r, d = Ptr a /\ records h !! a = Some r /\
                            compare t key (ChainedTable.key r) = 0
    | [] => True
    end.
Proof.
  revert count. induction node as [|data next IH]; intros count;
    cbn [remove_loop].
  - intros [= <- <-]. split; [reflexivity|]. exists []. cbn.
    repeat split; auto. lia.
  - intros H. apply bind_Done in H as (r & h1 & Hl & H).
    apply load_record_Done in Hl as (-> & a & -> & Hr).
    destruct (compare t key (ChainedTable.key r) =? 0) eqn:E.
    + inversion H; subst. split; [reflexivity|]. exists []. cbn.
      apply Z.eqb_eq in E. repeat split; eauto. lia.
    + apply IH in H as (-> & pre & Hn & Hc & Hpre & Hhd).
      split; [reflexivity|]. exists (Ptr a :: pre). cbn [app length].
      apply Z.eqb_neq in E. repeat split.
      * f_equal. exact Hn.
      * lia.
      * constructor; eauto.
      * exact Hhd.
Qed.

Lemma remove_n_Done p n h u h' :
  remove_n p n h = Done u h' ->
  exists a l, p = Ptr a /\ lists h !! a = Some l /\
    match first l !! Z.to_nat n with
    | Some d => exists b, d = Ptr b /\
        h' = {| records := delete b (records h);
                lists := <[a := {| first := delete (Z.to_nat n) (first l) |}]>
                           (lists h) |}
    | None => h' = h
    end.
Proof.
  unfold remove_n. intros H.
  apply bind_Done in H as (l & h1 & Hl & H).
  apply load_list_Done in Hl as (-> & a & -> & Ha).
  exists a, l. repeat split; auto.
  destruct (first l !! Z.to_nat n) as [d|]; [|inversion H; auto].
  apply bind_Done in H as (u1 & h2 & Hf & H).
  unfold free_record in Hf.
  apply bind_Done in Hf as (b & h3 & Hd & Hf).
  apply deref_Done in Hd as [-> ->]. inversion Hf; subst h2.
  unfold store_list in H. cbn in H. rewrite Ha in H. inversion H; subst.
  eauto.
Qed.

(** What a returning [remove] has done: nothing when it answers
    [false]; when it answers [true], the first node of the bucket's
    chain whose key compares equal has been dropped and freed. *)
Lemma remove_Done t key h b h' :
  remove (Some t) key h = Done b h' ->
  (b = false /\ h' = h) \/
  (b = true /\ exists i a l pre d post e r,
     home_bucket t key = Some i /\
     buckets t !! Z.to_nat i = Some (Ptr a) /\
     lists h !! a = Some l /\ first l = pre ++ Ptr d :: post /\
     records h !! d = Some r /\ compare t key (ChainedTable.key r) = 0 /\
     Forall (fun d => exists a r, d = Ptr a /\ records h !! a = Some r /\
                        compare t key (ChainedTable.key r) <> 0) pre /\
     e = {| first := pre ++ post |} /\
     h' = {| records := delete d (records h);
             lists := <[a := e]> (lists h) |}).
Proof.
  unfold remove. destruct (is_null key); [intros [= <- <-]; auto|].
  intros H. apply bind_Done in H as (p & h1 & Hb & H).
  pose proof Hb as Hb0.
  apply bucket_of_Done in Hb as (-> & i & Hi & Hp).
  apply bind_Done in H as (l & h2 & Hl & H).
  apply load_list_Done in Hl as (-> & a & -> & Ha).
  apply bind_Done in H as ([count node] & h3 & Hs & H).
  apply remove_loop_Done in Hs as (-> & pre & Hn & Hc & Hpre & Hhd).
  cbn [fst snd] in *. destruct node as [|d post].
  - inversion H; auto.
  - destruct Hhd as (b0 & r & -> & Hr & He).
    rewrite (bind_step _ _ _ _ _ Hb0) in H.
    apply bind_Done in H as (u & h4 & Hr' & H). inversion H; subst b h'.
    apply remove_n_Done in Hr' as (a' & l' & [= <-] & Ha' & Hm).
    rewrite Ha in Ha'. inversion Ha'; subst l'.
    assert (Hpos : Z.to_nat count = length pre) by lia.
    rewrite Hpos, Hn in Hm.
    rewrite lookup_app_r, Nat.sub_diag in Hm by lia. cbn in Hm.
    destruct Hm as (b1 & [= <-] & ->).
    right. split; [reflexivity|].
    exists i, a, l, pre, b0, post, {| first := pre ++ post |}, r.
    repeat split; auto.
    f_equal. f_equal. f_equal.
    rewrite delete_middle. reflexivity.
Qed.

(** ** [replace] and [remove] add no entry and change no key *)

Lemma shrinks_refl h : shrinks h h.
Proof. split; intros; eauto. Qed.

Lemma shrinks_trans h1 h2 h3 : shrinks h1 h2 -> shrinks h2 h3 -> shrinks h1 h3.
Proof.
  intros [L12 R12] [L23 R23]. split.
  - intros a l3 H3. destruct (L23 _ _ H3) as (l2 & H2 & S23).
    destruct (L12 _ _ H2) as (l1 & H1 & S12).
    exists l1. split; [exact H1 | set_solver].
  - intros b r3 H3. destruct (R23 _ _ H3) as (r2 & H2 & E23).
    destruct (R12 _ _ H2) as (r1 & H1 & E12).
    exists r1. split; [exact H1 | congruence].
Qed.

Lemma replace_shrinks table key new_value h b h' :
  replace table key new_value h = Done b h' -> shrinks h h'.
Proof.
  destruct table as [t|]; [|intros [= <- <-]; apply shrinks_refl].
  intros H. apply replace_Done in H as [[_ ->]|(_ & a & r & Hr & _ & ->)];
    [apply shrinks_refl|].
  split; cbn [lists records].
  - intros a' l' H. exists l'. split; [exact H | set_solver].
  - intros b' r' H. destruct (decide (a = b')) as [<-|Hne].
    + rewrite lookup_insert_eq in H. inversion H; subst r'. eauto.
    + rewrite lookup_insert_ne in H by exact Hne. eauto.
Qed.

Lemma remove_shrinks table key h b h' :
  remove table key h = Done b h' -> shrinks h h'.
Proof.
  destruct table as [t|]; [|intros [= <- <-]; apply shrinks_refl].
  intros H. apply remove_Done in H
    as [[_ ->]|(_ & i & a & l & pre & d & post & e & r & _ & _ & Ha & Hl
                  & _ & _ & _ & -> & ->)];
    [apply shrinks_refl|].
  split; cbn [lists records].
  - intros a' l' H. destruct (decide (a = a')) as [<-|Hne].
    + rewrite lookup_insert_eq in H. inversion H; subst l'.
      exists l. split; [exact Ha|]. cbn [first]. rewrite Hl.
      intros x. rewrite !elem_of_app, elem_of_cons. tauto.
    + rewrite lookup_insert_ne in H by exact Hne.
      exists l'. split; [exact H | set_solver].
  - intros b' r' H. apply lookup_delete_Some in H as [_ H]. eauto.
Qed.

Lemma bucket_inv_shrinks t h h' :
  bucket_inv t h -> shrinks h h' -> bucket_inv t h'.
Proof.
  intros Hinv [HL HR] i a l' b r' Hb Hl' Hin Hr'.
  destruct (HL _ _ Hl') as (l & Hl & Hsub).
  destruct (HR _ _ Hr') as (r & Hr & Hk).
  rewrite <- Hk. eapply Hinv; eauto.
Qed.

(** A table fresh from [create_table] satisfies the invariant in any
    store: none of its buckets points to a list. *)
Lemma bucket_inv_created n hf cmp fmt ks vs t h :
  create_table n hf cmp fmt ks vs = Some t -> bucket_inv t h.
Proof.
  intros [= <-] i a l b r Hb. cbn [buckets] in Hb.
  apply lookup_replicate in Hb as [? _]. discriminate.
Qed.

(** Keys that compare equal share a home bucket once the hash agrees
    with the comparator. *)
Lemma home_bucket_compare t k1 k2 :
  (forall a b, compare t a b = 0 -> hash_function t a = hash_function t b) ->
  compare t k1 k2 = 0 -> home_bucket t k1 = home_bucket t k2.
Proof. intros Hc He. unfold home_bucket. rewrite (Hc _ _ He). reflexivity. Qed.

(** ** Calls that find their key *)

Lemma replace_loop_found t key new_value pre d post r h :
  Forall (passes_over t key h) pre ->
  records h !! d = Some r ->
  compare t key (ChainedTable.key r) = 0 ->
  replace_loop t key new_value (pre ++ Ptr d :: post) h
  = Done true
      {| records :=
           <[d := {| key := ChainedTable.key r; value := new_value |}]>
             (records h);
         lists := lists h |}.
Proof.
  intros Hpre Hr He. induction Hpre as [|x pre (a & r0 & -> & Hr0 & Hne) _ IH];
    cbn [app replace_loop].
  - rewrite (bind_step _ _ _ _ _ (load_record_live _ _ _ Hr)).
    apply Z.eqb_eq in He. rewrite He.
    cbv [bind store_value store_record deref ret]. rewrite Hr. reflexivity.
  - rewrite (bind_step _ _ _ _ _ (load_record_live _ _ _ Hr0)).
    apply Z.eqb_neq in Hne. rewrite Hne. exact IH.
Qed.

Lemma remove_loop_found t key count pre d post r h :
  Forall (passes_over t key h) pre ->
  records h !! d = Some r ->
  compare t key (ChainedTable.key r) = 0 ->
  remove_loop t key count (pre ++ Ptr d :: post) h
  = Done (count + Z.of_nat (length pre), Ptr d :: post) h.
Proof.
  intros Hpre Hr He. revert count.
  induction Hpre as [|x pre (a & r0 & -> & Hr0 & Hne) _ IH]; intros count;
    cbn [app remove_loop length].
  - rewrite (bind_step _ _ _ _ _ (load_record_live _ _ _ Hr)).
    apply Z.eqb_eq in He. rewrite He. cbv [ret]. do 2 f_equal. lia.
  - rewrite (bind_step _ _ _ _ _ (load_record_live _ _ _ Hr0)).
    apply Z.eqb_neq in Hne. rewrite Hne. rewrite IH. do 2 f_equal. lia.
Qed.

Lemma remove_n_at a l n d count h :
  lists h !! a = Some l -> first l !! n = Some (Ptr d) ->
  Z.to_nat count = n ->
  remove_n (Ptr a) count h
  = Done tt {| records := delete d (records h);
               lists := <[a := {| first := delete n (first l) |}]> (lists h) |}.
Proof.
  intros Hl Hn <-. unfold remove_n.
  pose proof (load_list_live _ _ _ Hl) as Hld.
  rewrite (bind_step _ _ _ _ _ Hld), Hn.
  cbv [bind free_record store_list deref ret]. cbn [lists records].
  rewrite Hl. reflexivity.
Qed.

(** [replace] on a key whose bucket holds a matching entry: it returns
    [true], the first matching record gets the new value pointer, its
    key and every chain stay as they were. *)
Lemma replace_found t key new_value a l pre d post r h :
  is_null key = false -> is_null new_value = false ->
  bucket_of t key h = Done (Ptr a) h ->
  lists h !! a = Some l -> first l = pre ++ Ptr d :: post ->
  Forall (passes_over t key h) pre ->
  records h !! d = Some r ->
  compare t key (ChainedTable.key r) = 0 ->
  replace (Some t) key new_value h
  = Done true
      {| records :=
           <[d := {| key := ChainedTable.key r; value := new_value |}]>
             (records h);
         lists := lists h |}.
Proof.
  intros Hk Hv Hb Hl Hf Hpre Hr He. unfold replace. rewrite Hk, Hv. cbn [orb].
  rewrite (bind_step _ _ _ _ _ Hb).
  pose proof (load_list_live _ _ _ Hl) as Hld.
  rewrite (bind_step _ _ _ _ _ Hld), Hf.
  apply replace_loop_found; assumption.
Qed.

(** [remove] on a key whose bucket holds a matching entry: it returns
    [true] and the first matching node leaves the chain, which gets
    shorter by one. *)
Lemma remove_found t key a l pre d post r h :
  is_null key = false ->
  bucket_of t key h = Done (Ptr a) h ->
  lists h !! a = Some l -> first l = pre ++ Ptr d :: post ->
  Forall (passes_over t key h) pre ->
  records h !! d = Some r ->
  compare t key (ChainedTable.key r) = 0 ->
  remove (Some t) key h
  = Done true
      {| records := delete d (records h);
         lists := <[a := {| first := pre ++ post |}]> (lists h) |}.
Proof.
  intros Hk Hb Hl Hf Hpre Hr He. unfold remove. rewrite Hk.
  rewrite (bind_step _ _ _ _ _ Hb).
  pose proof (load_list_live _ _ _ Hl) as Hld.
  rewrite (bind_step _ _ _ _ _ Hld), Hf.
  rewrite (bind_step _ _ _ _ _
             (remove_loop_found _ _ 0 _ _ _ _ _ Hpre Hr He)).
  cbn [snd fst]. rewrite (bind_step _ _ _ _ _ Hb).
  assert (Hn : first l !! length pre = Some (Ptr d))
    by (rewrite Hf, lookup_app_r, Nat.sub_diag by lia; reflexivity).
  assert (Hc : Z.to_nat (0 + Z.of_nat (length pre)) = length pre) by lia.
  rewrite (bind_step _ _ _ _ _ (remove_n_at _ _ _ _ _ _ Hl Hn Hc)).
  rewrite Hf, delete_middle. reflexivity.
Qed.

(** ** The scenario's stores *)

Lemma bucket_inv_heap_9_5 : bucket_inv linked heap_9_5.
Proof.
  intros i a l b r Hb Hl Hin Hr.
  destruct i as [|[|[|[|i]]]]; cbn in Hb; inversion Hb; subst a;
    vm_compute in Hl; inversion Hl; subst l; cbn [first] in Hin.
  - inversion Hin.
  - apply elem_of_cons in Hin as [[= ->]|Hin];
      [|apply elem_of_cons in Hin as [[= ->]|Hin]; [|inversion Hin]];
      vm_compute in Hr; inversion Hr; subst r; reflexivity.
  - inversion Hin.
  - inversion Hin.
Qed.

(** The scenario's hash agrees with its comparator. *)
Lemma int_compare_hash (a b : ptr) :
  compare linked a b = 0 -> hash_function linked a = hash_function linked b.
Proof. cbn. unfold int_compare, int_hash. lia. Qed.

(** * The properties of the specification *)

(** C1.  Round trip: [insert(T, k, v)] followed by [search(T, k)]
    returns [v].  The code does not do this.  On the table
    [create_table] returns, [insert(T, &5, "a")] stops on the write
    through its uninitialised [r], and [search(T, &5)] dereferences the
    [NULL] bucket; on a table whose bucket is a live list, [insert]
    stops the same way and a search for the key that was to be
    inserted never returns. *)
Theorem round_trip_broken :
  insert created k5 va no_cells = Fault UninitialisedPointer /\
  (forall fuel, search fuel created k5 no_cells = Fault NullDereference) /\
  insert (Some linked) k9 vb heap_5 = Fault UninitialisedPointer /\
  (forall fuel, search fuel (Some linked) k9 heap_5 = Timeout).
Proof.
  split; [reflexivity|].
  split; [intros fuel; apply search_created; [lia | reflexivity]|].
  split; [reflexivity|].
  apply (search_stuck linked k9 11 {| first := [Ptr 105] |} 105 []
           {| key := k5; value := va |});
    try reflexivity.
  discriminate.
Qed.

(** C2.  [search] is to stop within [chain_length] comparisons, its
    cursor moving on every iteration.  The loop of [search] has no
    [node = node->next]: with bucket 1 holding [9:"b", 5:"a"], a search
    for the absent key 13 and a search for key 5, which is second in
    the chain, are both still on the first node whatever the number of
    iterations allowed.  [replace] and [remove], whose loops do move
    on, return on the same input. *)
Theorem search_does_not_advance :
  (forall fuel, search fuel (Some linked) k13 heap_9_5 = Timeout) /\
  (forall fuel, search fuel (Some linked) k5 heap_9_5 = Timeout) /\
  replace (Some linked) k13 va heap_9_5 = Done false heap_9_5 /\
  remove (Some linked) k13 heap_9_5 = Done false heap_9_5.
Proof.
  split; [|split; [|split; reflexivity]].
  - apply (search_stuck linked k13 11 {| first := [Ptr 109; Ptr 105] |} 109
             [Ptr 105] {| key := k9; value := vb |});
      try reflexivity.
    discriminate.
  - apply (search_stuck linked k5 11 {| first := [Ptr 109; Ptr 105] |} 109
             [Ptr 105] {| key := k9; value := vb |});
      try reflexivity.
    discriminate.
Qed.

(** C3.  On a new table [search], [replace] and [remove] are to report
    "not found".  [create_table] leaves every bucket [NULL] and each of
    the three reads [->first] of the bucket it selects: on the table
    [create_table(4, ...)] returns, in any store, all three stop on a
    null dereference. *)
Theorem new_table_calls_crash :
  forall fuel h,
    search fuel created k5 h = Fault NullDereference /\
    replace created k5 va h = Fault NullDereference /\
    remove created k5 h = Fault NullDereference.
Proof.
  intros fuel h. split; [|split].
  - apply search_created; [lia | reflexivity].
  - apply replace_created; [lia | reflexivity | reflexivity].
  - apply remove_created; [lia | reflexivity].
Qed.

(** C4.  [insert] is to create an entry holding copies of the key and
    value bytes and link it into the chain of bucket [hash(key) mod N].
    It creates none: [r] is never given a record to point to, and the
    first statement after its declaration writes through it.  For
    every table and every store, [insert(T, &5, "a")] stops there,
    before any list is touched. *)
Theorem insert_creates_no_entry :
  forall t h, insert (Some t) k5 va h = Fault UninitialisedPointer.
Proof. intros t h. apply insert_nonnull; reflexivity. Qed.

(** C5, as stated: on a key that is already in the target chain
    [insert] either fails as a duplicate (returns [false], table
    unchanged) or does what [replace] does.  It does neither: with
    bucket 1 holding [5:"a"], [insert(T, &5, "c")] does not return
    [false], and it is not [replace(T, &5, "c")], which returns [true]
    with the value overwritten. *)
Lemma insert_duplicate_counterexample :
  ~ (insert (Some linked) k5 vc heap_5 = Done false heap_5 \/
     insert (Some linked) k5 vc heap_5 = replace (Some linked) k5 vc heap_5).
Proof.
  assert (Hr : replace (Some linked) k5 vc heap_5 = Done true heap_5c)
    by (vm_compute; reflexivity).
  rewrite Hr. intros [H|H]; discriminate H.
Qed.

(** C5, amended.  [insert] has no duplicate-key policy.  It returns
    [false] exactly when the table, the key or the value is [NULL], and
    then leaves the store as it was; and its outcome is the same
    whatever comparator the table carries, since it makes no
    comparator call. *)
Theorem insert_has_no_duplicate_check :
  (forall table key value h h',
     insert table key value h = Done false h' <->
     (table = None \/ key = NULL \/ value = NULL) /\ h' = h) /\
  (forall t cmp key value h,
     insert (Some (with_compare t cmp)) key value h
     = insert (Some t) key value h).
Proof.
  split.
  - intros table key value h h'. split.
    + intros H. apply insert_Done in H as (_ & -> & H). auto.
    + intros [[->|[->| ->]] ->].
      * reflexivity.
      * destruct table; reflexivity.
      * destruct table; [|reflexivity]. cbn. destruct (is_null key); reflexivity.
  - intros t cmp key value h. cbn.
    destruct (is_null key), (is_null value); reflexivity.
Qed.

(** C6.  After [insert(T, k, v1)], [replace(T, k, v2)] is to succeed and
    [search(T, k)] to return [v2], the chain keeping its length.  On the
    table [create_table] returns, [insert(T, &5, "a")] stops on its
    uninitialised [r] and leaves no entry, and [replace(T, &5, "c")]
    then dereferences the [NULL] bucket.  Where the entry is there but
    not first in its chain (bucket 1 holding [9:"b", 5:"a"]), [replace]
    does overwrite the value in place, and the [search] that follows
    never returns. *)
Theorem replace_after_insert_broken :
  insert created k5 va no_cells = Fault UninitialisedPointer /\
  replace created k5 vc no_cells = Fault NullDereference /\
  replace (Some linked) k5 vc heap_9_5 = Done true heap_9_5c /\
  (forall fuel, search fuel (Some linked) k5 heap_9_5c = Timeout).
Proof.
  split; [reflexivity|]. split; [reflexivity|].
  split; [vm_compute; reflexivity|].
  apply (search_stuck linked k5 11 {| first := [Ptr 109; Ptr 105] |} 109
           [Ptr 105] {| key := k9; value := vb |});
    try reflexivity.
  discriminate.
Qed.

(** C7.  After a successful [remove(T, k)], [search(T, k)] is to report
    "not found" and [insert(T, k, v)] to succeed; [remove] of an absent
    key is to return [false].  With bucket 1 holding [9:"b", 5:"a"],
    [remove(T, &9)] returns [true] and leaves [5:"a"]; the [search] for
    9 that follows never returns, and [insert(T, &9, "b")] stops on its
    uninitialised [r].  On the table [create_table] returns, [remove]
    of the absent key 9 dereferences the [NULL] bucket. *)
Theorem remove_then_search_insert_broken :
  remove (Some linked) k9 heap_9_5 = Done true heap_5 /\
  (forall fuel, search fuel (Some linked) k9 heap_5 = Timeout) /\
  insert (Some linked) k9 vb heap_5 = Fault UninitialisedPointer /\
  remove created k9 no_cells = Fault NullDereference.
Proof.
  split; [vm_compute; reflexivity|].
  split; [|split; reflexivity].
  apply (search_stuck linked k9 11 {| first := [Ptr 105] |} 105 []
           {| key := k5; value := va |});
    try reflexivity.
  discriminate.
Qed.

(** C8, as stated: [create_table] with [N <= 0] fails.  It does not:
    for [N = 0] and for [N = -3] a table is returned. *)
Lemma create_table_nonpositive_counterexample :
  ~ (forall n, n <= 0 ->
       create_table n int_hash int_compare int_format 4 1 = None).
Proof. intros H. specialize (H 0 ltac:(lia)). discriminate H. Qed.

(** C8, amended.  [create_table] checks nothing: for every [N] it
    returns a table that records [N] and the functions and sizes it was
    given.  The bucket array has [max(N, 0)] slots, so exactly [N] of
    them when [N >= 1] and none when [N <= 0], and every slot is
    [NULL]. *)
Theorem create_table_never_fails :
  forall n hf cmp fmt ks vs,
    exists t,
      create_table n hf cmp fmt ks vs = Some t /\
      N t = n /\ hash_function t = hf /\ compare t = cmp /\
      record_formatter t = fmt /\ key_size t = ks /\ value_size t = vs /\
      Z.of_nat (length (buckets t)) = Z.max n 0 /\
      buckets t = replicate (length (buckets t)) NULL.
Proof.
  intros n hf cmp fmt ks vs. eexists. split; [reflexivity|].
  cbn [N hash_function compare record_formatter key_size value_size buckets].
  repeat (split; [reflexivity|]). rewrite length_replicate.
  split; [lia | reflexivity].
Qed.



(** C10.  [insert] is to link the new entry at the head of the chain,
    and [search] and [remove] to act on the most recently inserted of
    the entries whose keys compare equal.  With bucket 1 holding
    [9:"b", 5:"a"], [insert(T, &5, "c")] links nothing: it stops on its
    uninitialised [r].  With bucket 1 holding [9:"b", 5:"c", 5:"a"],
    [search(T, &5)] does not return the later entry's ["c"]: it never
    returns.  [remove(T, &5)] does drop the later entry and leave the
    earlier one. *)
Theorem head_insertion_order_broken :
  insert (Some linked) k5 vc heap_9_5 = Fault UninitialisedPointer /\
  (forall fuel, search fuel (Some linked) k5 heap_9_5_5 = Timeout) /\
  remove (Some linked) k5 heap_9_5_5 = Done true heap_9_5.
Proof.
  split; [reflexivity|]. split; [|vm_compute; reflexivity].
  apply (search_stuck linked k5 11
           {| first := [Ptr 109; Ptr 115; Ptr 105] |} 109
           [Ptr 115; Ptr 105] {| key := k9; value := vb |});
    try reflexivity.
  discriminate.
Qed.

(** * Further properties of the code *)

(** ** Bucket selection *)

(** Selecting a bucket reads the table only, never the store. *)
Lemma bucket_of_indep t key h h' p :
  bucket_of t key h = Done p h -> bucket_of t key h' = Done p h'.
Proof.
  unfold bucket_of, bucket_index. cbv [bind crash ret].
  destruct (to_size_t (N t) =? 0); [discriminate|].
  destruct (buckets t !! _); [|discriminate].
  intros [= ->]. reflexivity.
Qed.

Lemma bucket_of_created_NULL n hf cmp fmt ks vs t key h p h' :
  create_table n hf cmp fmt ks vs = Some t ->
  bucket_of t key h = Done p h' -> p = NULL.
Proof.
  intros [= <-] H. apply bucket_of_Done in H as (_ & i & _ & Hp).
  cbn [buckets] in Hp. apply lookup_replicate in Hp as [-> _]. reflexivity.
Qed.

(** On a table from [create_table], a call that has got past its
    null-argument guard does not return. *)
Lemma created_after_guard {A} n hf cmp fmt ks vs t key (k : LinkedList -> M A)
    h b h' :
  create_table n hf cmp fmt ks vs = Some t ->
  bind (bucket_of t key) (fun list => bind (load_list list) k) h
  <> Done b h'.
Proof.
  intros Ht H. apply bind_Done in H as (p & h1 & Hb & H).
  rewrite (bucket_of_created_NULL _ _ _ _ _ _ _ _ _ _ _ Ht Hb) in H.
  discriminate H.
Qed.

(** The three mutating calls on a table from [create_table]. *)
Lemma run_created n hf cmp fmt ks vs o h b h' :
  run (create_table n hf cmp fmt ks vs) o h = Done b h' <->
  has_null_arg o = true /\ b = false /\ h' = h.
Proof.
  destruct (create_table n hf cmp fmt ks vs) as [t|] eqn:Ht; [|discriminate].
  destruct o as [key value|key new_value|key]; cbn [run has_null_arg].
  - split.
    + intros H. pose proof (insert_Done _ _ _ _ _ _ H) as (-> & -> & Hn).
      split; [|auto]. destruct Hn as [Hn|[->| ->]];
        [discriminate | reflexivity | apply orb_true_r].
    + intros (Hn & -> & ->). unfold insert. rewrite Hn. reflexivity.
  - unfold replace. destruct (is_null key || is_null new_value).
    + split; [intros [= <- <-]; auto | intros (_ & -> & ->); reflexivity].
    + split; [|intros (? & _); discriminate].
      intros H. exfalso.
      exact (created_after_guard _ _ _ _ _ _ _ _ _ _ _ _ Ht H).
  - unfold remove. destruct (is_null key).
    + split; [intros [= <- <-]; auto | intros (_ & -> & ->); reflexivity].
    + split; [|intros (? & _); discriminate].
      intros H. exfalso.
      exact (created_after_guard _ _ _ _ _ _ _ _ _ _ _ _ Ht H).
Qed.

Lemma search_created_Done n hf cmp fmt ks vs fuel key h p h' :
  search fuel (create_table n hf cmp fmt ks vs) key h = Done p h' <->
  key = NULL /\ p = NULL /\ h' = h.
Proof.
  destruct (create_table n hf cmp fmt ks vs) as [t|] eqn:Ht; [|discriminate].
  unfold search. destruct (is_null key) eqn:Hk.
  - apply is_null_true in Hk as ->.
    split; [intros [= <- <-]; auto | intros (_ & -> & ->); reflexivity].
  - split.
    + intros H. exfalso.
      exact (created_after_guard _ _ _ _ _ _ _ _ _ _ _ _ Ht H).
    + intros (-> & _). discriminate Hk.
Qed.

(** X1.  A table that comes from [create_table], whatever [N] was,
    answers a call only through the null-argument guard: [insert],
    [replace] and [remove] return exactly when one of their pointer
    arguments is [NULL], the answer then being [false] and the store
    untouched; [search] returns exactly when its key is [NULL], the
    answer being [NULL].  Every other call stops on a fault. *)
Theorem created_table_answers_only_null_calls :
  (forall n hf cmp fmt ks vs o h b h',
     run (create_table n hf cmp fmt ks vs) o h = Done b h' <->
     has_null_arg o = true /\ b = false /\ h' = h) /\
  (forall n hf cmp fmt ks vs fuel key h p h',
     search fuel (create_table n hf cmp fmt ks vs) key h = Done p h' <->
     key = NULL /\ p = NULL /\ h' = h).
Proof.
  split; intros; [apply run_created | apply search_created_Done].
Qed.

(** X2.  No sequence of [insert], [replace] and [remove] calls that
    returns changes the store of a table that comes from
    [create_table]: through these calls alone such a table never gets
    an entry. *)
Theorem created_table_never_changes :
  forall n hf cmp fmt ks vs os h0 h,
    run_all (create_table n hf cmp fmt ks vs) os h0 = Done tt h ->
    h = h0.
Proof.
  intros n hf cmp fmt ks vs os. induction os as [|o os IH]; intros h0 h;
    cbn [run_all].
  - intros [= <-]. reflexivity.
  - intros H. apply bind_Done in H as (b & h1 & Ho & H).
    apply run_created in Ho as (_ & _ & ->).
    exact (IH _ _ H).
Qed.

Lemma created_table_never_changes_witness :
  run_all created [Insert NULL va; Replace k5 NULL; Remove NULL] heap_9_5
  = Done tt heap_9_5 /\
  heap_9_5 = heap_9_5.
Proof.
  split; [reflexivity|].
  exact (created_table_never_changes 4 int_hash int_compare int_format 4 1
           [Insert NULL va; Replace k5 NULL; Remove NULL] heap_9_5 heap_9_5
           eq_refl).
Defined.

(** X3.  [create_table(0, ...)] returns a table on which every
    [search], [replace] and [remove] with non-null arguments divides by
    zero in [hash % N]. *)
Theorem zero_sized_table_divides_by_zero :
  forall hf cmp fmt ks vs fuel key new_value h,
    is_null key = false -> is_null new_value = false ->
    search fuel (create_table 0 hf cmp fmt ks vs) key h = Fault DivisionByZero /\
    replace (create_table 0 hf cmp fmt ks vs) key new_value h
    = Fault DivisionByZero /\
    remove (create_table 0 hf cmp fmt ks vs) key h = Fault DivisionByZero.
Proof.
  intros hf cmp fmt ks vs fuel key new_value h Hk Hv.
  unfold search, replace, remove, create_table. rewrite Hk, Hv.
  repeat split.
Qed.

Lemma zero_sized_table_divides_by_zero_witness :
  search 3 created_0 k5 no_cells = Fault DivisionByZero /\
  replace created_0 k5 va no_cells = Fault DivisionByZero /\
  remove created_0 k5 no_cells = Fault DivisionByZero.
Proof.
  exact (zero_sized_table_divides_by_zero int_hash int_compare int_format 4 1
           3%nat k5 va no_cells eq_refl eq_refl).
Defined.

Lemma bucket_of_negative n hf cmp fmt ks vs t key h :
  create_table n hf cmp fmt ks vs = Some t ->
  - 2 ^ 31 <= n < 0 ->
  bucket_of t key h = Fault OutOfBounds.
Proof.
  intros [= <-] Hn. unfold bucket_of, bucket_index.
  cbn [N hash_function buckets].
  assert (Hs : to_size_t n = 2 ^ 64 + n).
  { unfold to_size_t. symmetry. apply (Z.mod_unique n (2 ^ 64) (-1)); lia. }
  rewrite Hs. destruct (2 ^ 64 + n =? 0) eqn:E; [apply Z.eqb_eq in E; lia|].
  cbv [bind ret crash].
  replace (Z.to_nat n) with 0%nat by lia. reflexivity.
Qed.

(** X4.  [create_table] with a negative [N] returns a table whose
    bucket array has no slot: every [search], [replace] and [remove]
    with non-null arguments indexes outside it. *)
Theorem negative_sized_table_out_of_bounds :
  forall n hf cmp fmt ks vs fuel key new_value h,
    - 2 ^ 31 <= n < 0 ->
    is_null key = false -> is_null new_value = false ->
    search fuel (create_table n hf cmp fmt ks vs) key h = Fault OutOfBounds /\
    replace (create_table n hf cmp fmt ks vs) key new_value h
    = Fault OutOfBounds /\
    remove (create_table n hf cmp fmt ks vs) key h = Fault OutOfBounds.
Proof.
  intros n hf cmp fmt ks vs fuel key new_value h Hn Hk Hv.
  destruct (create_table n hf cmp fmt ks vs) as [t|] eqn:Ht; [|discriminate].
  pose proof (bucket_of_negative _ _ _ _ _ _ _ key h Ht Hn) as Hb.
  unfold search, replace, remove. rewrite Hk, Hv. cbn [orb].
  unfold bind. rewrite Hb. auto.
Qed.

Lemma negative_sized_table_out_of_bounds_witness :
  search 3 created_neg k5 no_cells = Fault OutOfBounds /\
  replace created_neg k5 va no_cells = Fault OutOfBounds /\
  remove created_neg k5 no_cells = Fault OutOfBounds.
Proof.
  exact (negative_sized_table_out_of_bounds (-3) int_hash int_compare
           int_format 4 1 3%nat k5 va no_cells ltac:(lia) eq_refl eq_refl).
Defined.

(** ** [search] *)

Lemma search_loop_first_iteration fuel t key node h :
  search_loop (S fuel) t key node h = search_loop 1 t key node h.
Proof.
  destruct node as [|data next]; [reflexivity|]. cbn [search_loop].
  unfold bind.
  destruct (load_record data h) as [r h1| |] eqn:Hl; [|reflexivity..].
  destruct (compare t key (ChainedTable.key r) =? 0) eqn:E; [reflexivity|].
  apply load_record_Done in Hl as (-> & a & -> & Hr).
  apply Z.eqb_neq in E. apply (search_loop_stuck t key a next r h Hr E).
Qed.

(** X5.  [search] decides everything in its first iteration: allowed
    any number of further iterations, it gives the outcome it gives
    when allowed one.  What it has not answered at the first node it
    never answers. *)
Theorem search_first_iteration_decides :
  forall fuel table key h,
    search (S fuel) table key h = search 1 table key h.
Proof.
  intros fuel [t|] key h; [|reflexivity]. unfold search.
  destruct (is_null key); [reflexivity|].
  unfold bind. destruct (bucket_of t key h) as [p h1| |]; [|reflexivity..].
  destruct (load_list p h1) as [l h2| |]; [|reflexivity..].
  apply search_loop_first_iteration.
Qed.

Lemma search_empty t key a l h fuel :
  is_null key = false ->
  bucket_of t key h = Done (Ptr a) h ->
  lists h !! a = Some l -> first l = [] ->
  search (S fuel) (Some t) key h = Done NULL h.
Proof.
  intros Hk Hb Hl Hf. unfold search. rewrite Hk.
  rewrite (bind_step _ _ _ _ _ Hb).
  rewrite (bind_step _ _ _ _ _ (load_list_live _ _ _ Hl)), Hf.
  reflexivity.
Qed.

(** X6.  When [search] returns on a non-null key, the store is as it
    was and the answer comes from the first node alone: [NULL] if the
    bucket's chain is empty, and otherwise the value pointer of the
    first entry, whose key compares equal.  Conversely those are the
    two cases in which it returns.  An entry further down the chain is
    never returned. *)
Theorem search_answers_from_first_node :
  forall fuel t key h p h',
    is_null key = false ->
    (search (S fuel) (Some t) key h = Done p h' <->
     h' = h /\
     exists a l,
       bucket_of t key h = Done (Ptr a) h /\ lists h !! a = Some l /\
       (first l = [] /\ p = NULL \/
        exists d next r,
          first l = Ptr d :: next /\ records h !! d = Some r /\
          compare t key (ChainedTable.key r) = 0 /\ p = value r)).
Proof.
  intros fuel t key h p h' Hk. split.
  - unfold search. rewrite Hk. intros H.
    apply bind_Done in H as (q & h1 & Hb & H).
    pose proof (bucket_of_Done _ _ _ _ _ Hb) as (-> & _).
    apply bind_Done in H as (l & h2 & Hl & H).
    apply load_list_Done in Hl as (-> & a & -> & Hl).
    destruct (first l) as [|data next] eqn:Hf; cbn [search_loop] in H.
    + inversion H; subst. split; [reflexivity|]. exists a, l. auto.
    + apply bind_Done in H as (r & h3 & Hr & H).
      apply load_record_Done in Hr as (-> & d & -> & Hr).
      destruct (compare t key (ChainedTable.key r) =? 0) eqn:E.
      * inversion H; subst. apply Z.eqb_eq in E.
        split; [reflexivity|]. exists a, l. repeat split; auto.
        right. exists d, next, r. auto.
      * apply Z.eqb_neq in E.
        rewrite (search_loop_stuck t key d next r h Hr E) in H. discriminate H.
  - intros (-> & a & l & Hb & Hl & [[Hf ->]|(d & next & r & Hf & Hr & He & ->)]).
    + eapply search_empty; eassumption.
    + eapply search_head; eassumption.
Qed.

Lemma search_answers_from_first_node_witness :
  is_null k5 = false /\
  search 1 (Some linked) k5 heap_5 = Done va heap_5.
Proof.
  split; [reflexivity|].
  apply (proj2 (search_answers_from_first_node 0 linked k5 heap_5 va heap_5
                  eq_refl)).
  split; [reflexivity|].
  exists 11, {| first := [Ptr 105] |}.
  split; [reflexivity|]. split; [reflexivity|].
  right. exists 105, [], {| key := k5; value := va |}.
  repeat split.
Defined.

(** ** [replace] and [remove] on a key that is not there *)

Lemma replace_loop_miss t key new_value node h :
  Forall (passes_over t key h) node ->
  replace_loop t key new_value node h = Done false h.
Proof.
  induction 1 as [|x node (a & r & -> & Hr & Hne) _ IH]; cbn [replace_loop];
    [reflexivity|].
  rewrite (bind_step _ _ _ _ _ (load_record_live _ _ _ Hr)).
  apply Z.eqb_neq in Hne. rewrite Hne. exact IH.
Qed.

Lemma remove_loop_miss t key count node h :
  Forall (passes_over t key h) node ->
  remove_loop t key count node h
  = Done (count + Z.of_nat (length node), []) h.
Proof.
  intros Hn. revert count.
  induction Hn as [|x node (a & r & -> & Hr & Hne) _ IH]; intros count;
    cbn [remove_loop length].
  - cbv [ret]. do 2 f_equal. lia.
  - rewrite (bind_step _ _ _ _ _ (load_record_live _ _ _ Hr)).
    apply Z.eqb_neq in Hne. rewrite Hne, IH. do 2 f_equal. lia.
Qed.

Lemma replace_miss t key new_value a l h :
  is_null key = false -> is_null new_value = false ->
  bucket_of t key h = Done (Ptr a) h ->
  lists h !! a = Some l ->
  Forall (passes_over t key h) (first l) ->
  replace (Some t) key new_value h = Done false h.
Proof.
  intros Hk Hv Hb Hl Hn. unfold replace. rewrite Hk, Hv. cbn [orb].
  rewrite (bind_step _ _ _ _ _ Hb).
  rewrite (bind_step _ _ _ _ _ (load_list_live _ _ _ Hl)).
  apply replace_loop_miss. exact Hn.
Qed.

Lemma remove_miss t key a l h :
  is_null key = false ->
  bucket_of t key h = Done (Ptr a) h ->
  lists h !! a = Some l ->
  Forall (passes_over t key h) (first l) ->
  remove (Some t) key h = Done false h.
Proof.
  intros Hk Hb Hl Hn. unfold remove. rewrite Hk.
  rewrite (bind_step _ _ _ _ _ Hb).
  rewrite (bind_step _ _ _ _ _ (load_list_live _ _ _ Hl)).
  rewrite (bind_step _ _ _ _ _ (remove_loop_miss _ _ 0 _ _ Hn)).
  reflexivity.
Qed.

(** X7.  When the bucket of a key is a live list in which no entry
    compares equal to the key, which includes the empty chain,
    [replace] and [remove] walk the whole chain, return [false] and
    leave the store as it was. *)
Theorem absent_key_reported_by_replace_and_remove :
  forall t key new_value a l h,
    is_null key = false -> is_null new_value = false ->
    bucket_of t key h = Done (Ptr a) h ->
    lists h !! a = Some l ->
    Forall (passes_over t key h) (first l) ->
    replace (Some t) key new_value h = Done false h /\
    remove (Some t) key h = Done false h.
Proof.
  intros t key new_value a l h Hk Hv Hb Hl Hn.
  split; [eapply replace_miss | eapply remove_miss]; eassumption.
Qed.

Lemma passes_over_heap_9_5_k13 :
  Forall (passes_over linked k13 heap_9_5) [Ptr 109; Ptr 105].
Proof.
  repeat constructor.
  - exists 109, {| key := k9; value := vb |}.
    split; [reflexivity|]. split; [reflexivity | discriminate].
  - exists 105, {| key := k5; value := va |}.
    split; [reflexivity|]. split; [reflexivity | discriminate].
Qed.

Lemma absent_key_reported_by_replace_and_remove_witness :
  replace (Some linked) k13 vc heap_9_5 = Done false heap_9_5 /\
  remove (Some linked) k13 heap_9_5 = Done false heap_9_5.
Proof.
  exact (absent_key_reported_by_replace_and_remove linked k13 vc 11
           {| first := [Ptr 109; Ptr 105] |} heap_9_5
           eq_refl eq_refl eq_refl eq_refl passes_over_heap_9_5_k13).
Defined.

(** ** [replace] and [remove] on a key that is there *)

(** X8.  When the bucket of a key is a live list and [d] is the first
    entry in it whose key compares equal, [replace] returns [true]; the
    record of [d] keeps its key and gets the pointer [new_value] as its
    value (the pointer itself, nothing is copied); every chain and
    every other record stay as they were. *)
Theorem replace_overwrites_first_match :
  forall t key new_value a l pre d post r h,
    is_null key = false -> is_null new_value = false ->
    bucket_of t key h = Done (Ptr a) h ->
    lists h !! a = Some l -> first l = pre ++ Ptr d :: post ->
    Forall (passes_over t key h) pre ->
    records h !! d = Some r ->
    compare t key (ChainedTable.key r) = 0 ->
    exists h',
      replace (Some t) key new_value h = Done true h' /\
      lists h' = lists h /\
      records h' !! d
      = Some {| key := ChainedTable.key r; value := new_value |} /\
      (forall b, b <> d -> records h' !! b = records h !! b).
Proof.
  intros t key new_value a l pre d post r h Hk Hv Hb Hl Hf Hpre Hr He.
  eexists. split; [eapply replace_found; eassumption|].
  cbn [lists records]. split; [reflexivity|].
  split; [apply lookup_insert_eq|].
  intros b Hne. apply lookup_insert_ne. congruence.
Qed.

Lemma passes_over_heap_9_5_k5 :
  Forall (passes_over linked k5 heap_9_5) [Ptr 109].
Proof.
  repeat constructor. exists 109, {| key := k9; value := vb |}.
  split; [reflexivity|]. split; [reflexivity | discriminate].
Qed.

Lemma replace_overwrites_first_match_witness :
  exists h',
    replace (Some linked) k5 vc heap_9_5 = Done true h' /\
    lists h' = lists heap_9_5 /\
    records h' !! 105 = Some {| key := k5; value := vc |} /\
    (forall b, b <> 105 -> records h' !! b = records heap_9_5 !! b).
Proof.
  exact (replace_overwrites_first_match linked k5 vc 11
           {| first := [Ptr 109; Ptr 105] |} [Ptr 109] 105 []
           {| key := k5; value := va |} heap_9_5
           eq_refl eq_refl eq_refl eq_refl eq_refl
           passes_over_heap_9_5_k5 eq_refl eq_refl).
Defined.

(** X9.  When the bucket of a key is a live list and [d] is the first
    entry in it whose key compares equal, [remove] returns [true]; that
    one node leaves the chain, which keeps its other nodes in order and
    is one shorter; the record of [d] is freed; every other list and
    every other record stay as they were. *)
Theorem remove_unlinks_first_match :
  forall t key a l pre d post r h,
    is_null key = false ->
    bucket_of t key h = Done (Ptr a) h ->
    lists h !! a = Some l -> first l = pre ++ Ptr d :: post ->
    Forall (passes_over t key h) pre ->
    records h !! d = Some r ->
    compare t key (ChainedTable.key r) = 0 ->
    exists h',
      remove (Some t) key h = Done true h' /\
      lists h' !! a = Some {| first := pre ++ post |} /\
      S (length (pre ++ post)) = length (first l) /\
      (forall a', a' <> a -> lists h' !! a' = lists h !! a') /\
      records h' !! d = None /\
      (forall b, b <> d -> records h' !! b = records h !! b).
Proof.
  intros t key a l pre d post r h Hk Hb Hl Hf Hpre Hr He.
  eexists. split; [eapply remove_found; eassumption|].
  cbn [lists records]. split; [apply lookup_insert_eq|].
  split; [rewrite Hf, !length_app; cbn [length]; lia|].
  split; [intros a' Hne; apply lookup_insert_ne; congruence|].
  split; [apply lookup_delete_eq|].
  intros b Hne. apply lookup_delete_ne. congruence.
Qed.

Lemma remove_unlinks_first_match_witness :
  exists h',
    remove (Some linked) k5 heap_9_5 = Done true h' /\
    lists h' !! 11 = Some {| first := [Ptr 109] ++ [] |} /\
    S (length ([Ptr 109] ++ @nil ptr)) = length [Ptr 109; Ptr 105] /\
    (forall a', a' <> 11 -> lists h' !! a' = lists heap_9_5 !! a') /\
    records h' !! 105 = None /\
    (forall b, b <> 105 -> records h' !! b = records heap_9_5 !! b).
Proof.
  exact (remove_unlinks_first_match linked k5 11
           {| first := [Ptr 109; Ptr 105] |} [Ptr 109] 105 []
           {| key := k5; value := va |} heap_9_5
           eq_refl eq_refl eq_refl eq_refl
           passes_over_heap_9_5_k5 eq_refl eq_refl).
Defined.

(** ** How the calls compose *)

(** X10.  [replace] then [search]: when the first entry of the key's
    chain is the one whose key compares equal, [replace(T, key, v)]
    returns [true] and the [search(T, key)] that follows returns the
    pointer [v]. *)
Theorem replace_then_search_at_head :
  forall fuel t key new_value a l d next r h,
    is_null key = false -> is_null new_value = false ->
    bucket_of t key h = Done (Ptr a) h ->
    lists h !! a = Some l -> first l = Ptr d :: next ->
    records h !! d = Some r ->
    compare t key (ChainedTable.key r) = 0 ->
    exists h',
      replace (Some t) key new_value h = Done true h' /\
      search (S fuel) (Some t) key h' = Done new_value h'.
Proof.
  intros fuel t key new_value a l d next r h Hk Hv Hb Hl Hf Hr He.
  eexists. split.
  - apply (replace_found t key new_value a l [] d next r h); auto.
  - eapply (search_head t key a l d next
              {| key := ChainedTable.key r; value := new_value |});
      cbn [lists records ChainedTable.key]; auto.
    + eapply bucket_of_indep. exact Hb.
    + apply lookup_insert_eq.
Qed.

Lemma replace_then_search_at_head_witness :
  exists h',
    replace (Some linked) k5 vc heap_5 = Done true h' /\
    search 1 (Some linked) k5 h' = Done vc h'.
Proof.
  exact (replace_then_search_at_head 0 linked k5 vc 11
           {| first := [Ptr 105] |} 105 [] {| key := k5; value := va |}
           heap_5 eq_refl eq_refl eq_refl eq_refl eq_refl eq_refl eq_refl).
Defined.

(** Freeing the record of a matching entry leaves the entries that do
    not match where they were. *)
Lemma passes_over_delete t key h d r x :
  records h !! d = Some r ->
  compare t key (ChainedTable.key r) = 0 ->
  passes_over t key h x ->
  passes_over t key
    {| records := delete d (records h); lists := lists h |} x.
Proof.
  intros Hr He (b & r0 & -> & Hr0 & Hne). exists b, r0.
  split; [reflexivity|]. split; [|exact Hne]. cbn [records].
  rewrite lookup_delete_ne; [exact Hr0|]. intros ->. congruence.
Qed.

(** X11.  [remove] then the same key again: when exactly one entry of
    the key's chain compares equal, [remove] returns [true], and in the
    store it leaves a second [remove] and a [replace] of that key both
    return [false], changing nothing. *)
Theorem remove_then_key_is_gone :
  forall t key new_value a l pre d post r h,
    is_null key = false -> is_null new_value = false ->
    bucket_of t key h = Done (Ptr a) h ->
    lists h !! a = Some l -> first l = pre ++ Ptr d :: post ->
    Forall (passes_over t key h) (pre ++ post) ->
    records h !! d = Some r ->
    compare t key (ChainedTable.key r) = 0 ->
    exists h',
      remove (Some t) key h = Done true h' /\
      remove (Some t) key h' = Done false h' /\
      replace (Some t) key new_value h' = Done false h'.
Proof.
  intros t key new_value a l pre d post r h Hk Hv Hb Hl Hf Hn Hr He.
  pose proof (proj1 (Forall_app _ _ _) Hn) as [Hpre _].
  eexists. split; [eapply remove_found; eassumption|].
  set (h' := {| records := delete d (records h);
                lists := <[a := {| first := pre ++ post |}]> (lists h) |}).
  assert (Hb' : bucket_of t key h' = Done (Ptr a) h')
    by (eapply bucket_of_indep; exact Hb).
  assert (Hl' : lists h' !! a = Some {| first := pre ++ post |})
    by apply lookup_insert_eq.
  assert (Hn' : Forall (passes_over t key h') (pre ++ post)).
  { eapply Forall_impl; [exact Hn|]. intros x Hx.
    destruct (passes_over_delete t key h d r x Hr He Hx)
      as (b & r0 & -> & Hr0 & Hne).
    exists b, r0. auto. }
  split; [eapply remove_miss | eapply replace_miss]; eassumption.
Qed.

Lemma remove_then_key_is_gone_witness :
  exists h',
    remove (Some linked) k5 heap_9_5 = Done true h' /\
    remove (Some linked) k5 h' = Done false h' /\
    replace (Some linked) k5 vc h' = Done false h'.
Proof.
  exact (remove_then_key_is_gone linked k5 vc 11
           {| first := [Ptr 109; Ptr 105] |} [Ptr 109] 105 []
           {| key := k5; value := va |} heap_9_5
           eq_refl eq_refl eq_refl eq_refl eq_refl
           passes_over_heap_9_5_k5 eq_refl eq_refl).
Defined.

(** X12.  [replace] twice: the second value wins.  After
    [replace(T, key, v1)] has returned [true], [replace(T, key, v2)]
    gives the very outcome it gives without the first call. *)
Theorem replace_twice_last_wins :
  forall t key v1 v2 a l pre d post r h,
    is_null key = false -> is_null v1 = false -> is_null v2 = false ->
    bucket_of t key h = Done (Ptr a) h ->
    lists h !! a = Some l -> first l = pre ++ Ptr d :: post ->
    Forall (passes_over t key h) pre ->
    records h !! d = Some r ->
    compare t key (ChainedTable.key r) = 0 ->
    exists h1,
      replace (Some t) key v1 h = Done true h1 /\
      replace (Some t) key v2 h1 = replace (Some t) key v2 h.
Proof.
  intros t key v1 v2 a l pre d post r h Hk Hv1 Hv2 Hb Hl Hf Hpre Hr He.
  eexists. split; [eapply replace_found; eassumption|].
  rewrite (replace_found t key v2 a l pre d post r h) by assumption.
  set (h1 := {| records :=
                  <[d := {| key := ChainedTable.key r; value := v1 |}]>
                    (records h);
                lists := lists h |}).
  rewrite (replace_found t key v2 a l pre d post
             {| key := ChainedTable.key r; value := v1 |} h1); auto;
    subst h1.
  - cbn [records lists ChainedTable.key].
    rewrite insert_insert_eq. reflexivity.
  - eapply bucket_of_indep. exact Hb.
  - eapply Forall_impl; [exact Hpre|].
    intros x (b & r0 & -> & Hr0 & Hne). exists b, r0.
    split; [reflexivity|]. split; [|exact Hne]. cbn [records].
    rewrite lookup_insert_ne; [exact Hr0|]. intros ->. congruence.
  - apply lookup_insert_eq.
Qed.

Lemma replace_twice_last_wins_witness :
  exists h1,
    replace (Some linked) k5 vb heap_9_5 = Done true h1 /\
    replace (Some linked) k5 vc h1 = replace (Some linked) k5 vc heap_9_5.
Proof.
  exact (replace_twice_last_wins linked k5 vb vc 11
           {| first := [Ptr 109; Ptr 105] |} [Ptr 109] 105 []
           {| key := k5; value := va |} heap_9_5
           eq_refl eq_refl eq_refl eq_refl eq_refl eq_refl
           passes_over_heap_9_5_k5 eq_refl eq_refl).
Defined.

(** ** What a returning call has and has not done *)

(** X13.  A call of [insert], [replace] or [remove] that returns
    [false] has left the store exactly as it was, on any table. *)
Theorem false_means_unchanged :
  forall table o h h',
    run table o h = Done false h' -> h' = h.
Proof.
  intros table o h h' H. destruct o as [key value|key new_value|key];
    cbn [run] in H.
  - apply insert_Done in H as (_ & -> & _). reflexivity.
  - destruct table as [t|]; [|inversion H; reflexivity].
    apply replace_Done in H as [[_ ->]|(Hb & _)];
      [reflexivity | discriminate Hb].
  - destruct table as [t|]; [|inversion H; reflexivity].
    apply remove_Done in H as [[_ ->]|(Hb & _)];
      [reflexivity | discriminate Hb].
Qed.

Lemma false_means_unchanged_witness :
  run (Some linked) (Remove k13) heap_9_5 = Done false heap_9_5 /\
  heap_9_5 = heap_9_5.
Proof.
  split; [reflexivity|].
  exact (false_means_unchanged (Some linked) (Remove k13) heap_9_5 heap_9_5
           eq_refl).
Defined.

(** X14.  [replace] never links, unlinks, allocates or frees: when it
    returns, every list is as it was, the same record cells exist, and
    each record has the key it had and either the value it had or
    [new_value]. *)
Theorem replace_touches_values_only :
  forall table key new_value h b h',
    replace table key new_value h = Done b h' ->
    lists h' = lists h /\
    dom (records h') = dom (records h) /\
    (forall a r', records h' !! a = Some r' ->
       exists r, records h !! a = Some r /\
                 ChainedTable.key r' = ChainedTable.key r /\
                 (value r' = value r \/ value r' = new_value)).
Proof.
  intros table key new_value h b h' H.
  assert (Hsame : h' = h ->
            lists h' = lists h /\ dom (records h') = dom (records h) /\
            (forall a r', records h' !! a = Some r' ->
               exists r, records h !! a = Some r /\
                         ChainedTable.key r' = ChainedTable.key r /\
                         (value r' = value r \/ value r' = new_value)))
    by (intros ->; repeat split; eauto).
  destruct table as [t|]; [|inversion H; subst; apply Hsame; reflexivity].
  apply replace_Done in H as [[_ Heq]|(_ & d & r & Hr & _ & ->)];
    [apply Hsame; exact Heq|].
  cbn [lists records]. split; [reflexivity|]. split.
  - apply dom_insert_lookup_L. eauto.
  - intros a r' Ha. destruct (decide (d = a)) as [<-|Hne].
    + rewrite lookup_insert_eq in Ha. inversion Ha; subst r'. eauto.
    + rewrite lookup_insert_ne in Ha by exact Hne. eauto.
Qed.

Lemma replace_touches_values_only_witness :
  replace (Some linked) k5 vc heap_9_5 = Done true heap_9_5c /\
  lists heap_9_5c = lists heap_9_5 /\
  dom (records heap_9_5c) = dom (records heap_9_5).
Proof.
  assert (H : replace (Some linked) k5 vc heap_9_5 = Done true heap_9_5c)
    by (vm_compute; reflexivity).
  split; [exact H|].
  destruct (replace_touches_values_only (Some linked) k5 vc heap_9_5 true
              heap_9_5c H) as (Hl & Hd & _).
  split; [exact Hl | exact Hd].
Defined.

(** X15.  When [remove] returns [true], exactly one node has gone, and
    it went from the chain of the key's own bucket: that chain is one
    shorter, every other list is as it was, and the one record that was
    freed had a key that compares equal to the key removed. *)
Theorem remove_takes_exactly_one :
  forall t key h h',
    remove (Some t) key h = Done true h' ->
    exists a l l' d r,
      bucket_of t key h = Done (Ptr a) h /\
      lists h !! a = Some l /\ lists h' !! a = Some l' /\
      length (first l) = S (length (first l')) /\
      (forall a', a' <> a -> lists h' !! a' = lists h !! a') /\
      records h !! d = Some r /\
      compare t key (ChainedTable.key r) = 0 /\
      records h' = delete d (records h).
Proof.
  intros t key h h' H. pose proof H as H0.
  apply remove_Done in H
    as [[Hb _]|(_ & i & a & l & pre & d & post & e & r & Hi & Hp & Hl & Hf
                  & Hr & He & _ & -> & ->)];
    [discriminate Hb|].
  exists a, l, {| first := pre ++ post |}, d, r. cbn [lists records first].
  repeat split; auto.
  - unfold bucket_of, bucket_index. unfold home_bucket in Hi.
    destruct (to_size_t (N t) =? 0); [discriminate|].
    injection Hi as <-. cbv [bind ret]. rewrite Hp. reflexivity.
  - apply lookup_insert_eq.
  - rewrite Hf, !length_app. cbn [length]. lia.
  - intros a' Hne. apply lookup_insert_ne. congruence.
Qed.

Lemma remove_takes_exactly_one_witness :
  remove (Some linked) k9 heap_9_5 = Done true heap_5 /\
  exists a l l' d r,
    bucket_of linked k9 heap_9_5 = Done (Ptr a) heap_9_5 /\
    lists heap_9_5 !! a = Some l /\ lists heap_5 !! a = Some l' /\
    length (first l) = S (length (first l')) /\
    (forall a', a' <> a -> lists heap_5 !! a' = lists heap_9_5 !! a') /\
    records heap_9_5 !! d = Some r /\
    compare linked k9 (ChainedTable.key r) = 0 /\
    records heap_5 = delete d (records heap_9_5).
Proof.
  assert (H : remove (Some linked) k9 heap_9_5 = Done true heap_5)
    by (vm_compute; reflexivity).
  split; [exact H|].
  exact (remove_takes_exactly_one linked k9 heap_9_5 heap_5 H).
Defined.

Lemma no_longer_same_lists h h' : lists h' = lists h -> no_longer h h'.
Proof.
  intros E a. rewrite E. destruct (lists h !! a) as [l|]; eauto.
Qed.

Lemma no_longer_trans h1 h2 h3 :
  no_longer h1 h2 -> no_longer h2 h3 -> no_longer h1 h3.
Proof.
  intros H12 H23 a. specialize (H12 a). specialize (H23 a).
  destruct (lists h3 !! a) as [l3|].
  - destruct H23 as (l2 & E2 & L23). rewrite E2 in H12.
    destruct H12 as (l1 & E1 & L12). exists l1. split; [exact E1 | lia].
  - rewrite H23 in H12. exact H12.
Qed.

Lemma run_no_longer table o h b h' :
  is_insert o = false ->
  run table o h = Done b h' -> no_longer h h'.
Proof.
  destruct o as [key value|key new_value|key]; cbn [run]; intros Ho H.
  - discriminate Ho.
  - destruct table as [t|];
      [|inversion H; apply no_longer_same_lists; reflexivity].
    apply replace_Done in H as [[_ ->]|(_ & d & r & _ & _ & ->)];
      apply no_longer_same_lists; reflexivity.
  - destruct table as [t|];
      [|inversion H; apply no_longer_same_lists; reflexivity].
    apply remove_Done in H
      as [[_ ->]|(_ & i & a & l & pre & d & post & e & r & _ & _ & Hl & Hf
                    & _ & _ & _ & -> & ->)];
      [apply no_longer_same_lists; reflexivity|].
    intros a0. cbn [lists]. destruct (decide (a = a0)) as [<-|Hne].
    + rewrite lookup_insert_eq. exists l. split; [exact Hl|].
      cbn [first]. rewrite Hf, !length_app. cbn [length]. lia.
    + rewrite lookup_insert_ne by exact Hne.
      destruct (lists h !! a0) as [l0|]; eauto.
Qed.

(** X16.  No sequence of [replace] and [remove] calls that returns
    makes a list or lengthens a chain, on any table: afterwards the
    store has lists at the addresses it had them and each chain has at
    most the nodes it had. *)
Theorem replace_and_remove_never_grow_chains :
  forall table os h h',
    Forall (fun o => is_insert o = false) os ->
    run_all table os h = Done tt h' -> no_longer h h'.
Proof.
  intros table os h h' Hos. revert h.
  induction Hos as [|o os Ho _ IH]; intros h; cbn [run_all].
  - intros [= <-]. apply no_longer_same_lists. reflexivity.
  - intros H. apply bind_Done in H as (b & h1 & Hrun & H).
    eapply no_longer_trans; [|exact (IH _ H)].
    eapply run_no_longer; [exact Ho | exact Hrun].
Qed.

Lemma replace_and_remove_never_grow_chains_witness :
  Forall (fun o => is_insert o = false) [Replace k5 vc; Remove k9] /\
  run_all (Some linked) [Replace k5 vc; Remove k9] heap_9_5
  = Done tt heap_5c /\
  no_longer heap_9_5 heap_5c.
Proof.
  assert (Hos : Forall (fun o => is_insert o = false)
                  [Replace k5 vc; Remove k9])
    by (repeat constructor).
  assert (H : run_all (Some linked) [Replace k5 vc; Remove k9] heap_9_5
              = Done tt heap_5c)
    by (vm_compute; reflexivity).
  split; [exact Hos|]. split; [exact H|].
  exact (replace_and_remove_never_grow_chains (Some linked) _ heap_9_5
           heap_5c Hos H).
Defined.

(** X17.  On a table with [N >= 1] whose bucket array has [N] slots,
    as [create_table] makes it, selecting the bucket of a key never
    faults: the index is the hash, as a [size_t], modulo [N], it lies
    in [0, N), and the slot read is a slot of the array. *)
Theorem bucket_selection_in_range :
  forall t key h,
    1 <= N t < 2 ^ 31 ->
    length (buckets t) = Z.to_nat (N t) ->
    exists i p,
      bucket_of t key h = Done p h /\
      i = to_size_t (hash_function t key) mod N t /\
      0 <= i < N t /\
      buckets t !! Z.to_nat i = Some p.
Proof.
  intros t key h Hn Hlen.
  set (i := to_size_t (hash_function t key) mod N t).
  assert (Hi : 0 <= i < N t) by (apply Z.mod_pos_bound; lia).
  destruct (lookup_lt_is_Some_2 (buckets t) (Z.to_nat i)) as [p Hp]; [lia|].
  exists i, p. repeat split; try lia; try exact Hp.
  unfold bucket_of, bucket_index.
  rewrite (to_size_t_small (N t)) by lia.
  destruct (N t =? 0) eqn:E; [apply Z.eqb_eq in E; lia|].
  cbv [bind ret]. fold i. rewrite Hp. reflexivity.
Qed.

Lemma bucket_selection_in_range_witness :
  exists i p,
    bucket_of linked k13 heap_9_5 = Done p heap_9_5 /\
    i = to_size_t (hash_function linked k13) mod N linked /\
    0 <= i < N linked /\
    buckets linked !! Z.to_nat i = Some p.
Proof.
  exact (bucket_selection_in_range linked k13 heap_9_5
           ltac:(cbn; lia) eq_refl).
Defined.

(** ** [insert] when its uninitialised [r] can be written through *)








(** X19.  [replace] and [remove] keep the bucket distribution: if every
    entry sits in the chain of its key's bucket [hash(key) mod N], it
    still does after any sequence of [replace] and [remove] calls that
    returns; and if the hash agrees with the comparator, an entry whose
    key compares equal to [key] is then only in the chain of bucket
    [hash(key) mod N]. *)
Theorem replace_and_remove_keep_bucket_invariant :
  forall t os h0 h,
    bucket_inv t h0 ->
    Forall (fun o => is_insert o = false) os ->
    run_all (Some t) os h0 = Done tt h ->
    bucket_inv t h /\
    ((forall a b, compare t a b = 0 -> hash_function t a = hash_function t b) ->
     forall key (i : nat) a l b r,
       buckets t !! i = Some (Ptr a) ->
       lists h !! a = Some l ->
       Ptr b ∈ first l ->
       records h !! b = Some r ->
       compare t key (ChainedTable.key r) = 0 ->
       home_bucket t key = Some (Z.of_nat i)).
Proof.
  intros t os h0 h Hinv Hos Hrun.
  assert (Hinv' : bucket_inv t h).
  { revert h0 Hinv Hrun.
    induction Hos as [|o os Ho _ IH]; intros h0 Hinv; cbn [run_all].
    - intros [= <-]. exact Hinv.
    - intros H. apply bind_Done in H as (b & h1 & Hrun & H).
      apply (IH h1); [|exact H].
      eapply bucket_inv_shrinks; [exact Hinv|].
      destruct o as [key value|key new_value|key]; [discriminate Ho|..];
        cbn [run] in Hrun;
        eauto using replace_shrinks, remove_shrinks. }
  split; [exact Hinv'|].
  intros Hc key i a l b r Hb Hl Hin Hr He.
  rewrite (home_bucket_compare t key (ChainedTable.key r) Hc He).
  eapply Hinv'; eassumption.
Qed.

Lemma replace_and_remove_keep_bucket_invariant_witness :
  bucket_inv linked heap_9_5 /\
  Forall (fun o => is_insert o = false) [Replace k5 vc; Remove k9] /\
  run_all (Some linked) [Replace k5 vc; Remove k9] heap_9_5
  = Done tt heap_5c /\
  bucket_inv linked heap_5c /\
  home_bucket linked k5 = Some 1.
Proof.
  assert (Hos : Forall (fun o => is_insert o = false)
                  [Replace k5 vc; Remove k9])
    by (repeat constructor).
  assert (H : run_all (Some linked) [Replace k5 vc; Remove k9] heap_9_5
              = Done tt heap_5c)
    by (vm_compute; reflexivity).
  split; [exact bucket_inv_heap_9_5|]. split; [exact Hos|].
  split; [exact H|].
  destruct (replace_and_remove_keep_bucket_invariant linked _ heap_9_5
              heap_5c bucket_inv_heap_9_5 Hos H) as [Hinv Hhome].
  split; [exact Hinv|].
  apply (Hhome int_compare_hash k5 1%nat 11 {| first := [Ptr 105] |} 105
           {| key := k5; value := vc |});
    try reflexivity.
  apply list_elem_of_here.
Defined.




